(** * MicroPXL: fenced 32-bit memory access ([Source/WriteMemSafe.c])

    The file embeds [writeMemSafe] and [readMemSafe] over a byte-addressed
    memory.  A call runs in a small state-and-failure monad: the state is the
    memory together with the trace of the memory operations performed so far,
    and failure stands for the undefined behaviour of an access through a
    pointer that is not valid for it. *)

From Stdlib Require Import ZArith Lia List.
From Stdlib.Strings Require Import Byte.
From stdpp Require Import base option gmap.
Import ListNotations.

Local Open Scope Z_scope.

(** ** Bytes and 32-bit values *)

Definition byte_to_Z (b : byte) : Z := Z.of_N (Byte.to_N b).

Definition byte_of_Z (z : Z) : byte :=
  match Byte.of_N (Z.to_N (z mod 256)) with
  | Some b => b
  | None => x00
  end.

(** [uint32_t] is modelled by [Z] restricted to [0 .. UINT32_MAX]. *)
Definition UINT32_MAX : Z := 4294967295.

Definition is_uint32 (v : Z) : bool := (0 <=? v) && (v <=? UINT32_MAX).

(** The object representation of an integer: [n] bytes, least significant
    byte first. *)
Fixpoint le_bytes (n : nat) (v : Z) : list byte :=
  match n with
  | O => []
  | S k => byte_of_Z v :: le_bytes k (v / 256)
  end.

Fixpoint le_value (bs : list byte) : Z :=
  match bs with
  | [] => 0
  | b :: r => byte_to_Z b + 256 * le_value r
  end.

(** Byte order of the target; the source is compiled for either. *)
Inductive endianness : Type := LittleEndian | BigEndian.

Definition encode_uint32 (e : endianness) (v : Z) : list byte :=
  match e with
  | LittleEndian => le_bytes 4 v
  | BigEndian => rev (le_bytes 4 v)
  end.

Definition decode_uint32 (e : endianness) (bs : list byte) : Z :=
  match e with
  | LittleEndian => le_value bs
  | BigEndian => le_value (rev bs)
  end.

(** ** Memory *)

(** A mapped byte: its contents and whether it may be stored to. *)
Record cell : Type := Cell { writable : bool; content : byte }.

#[global] Instance byte_eq_decision : EqDecision byte := Byte.byte_eq_dec.

#[global] Instance cell_eq_dec : EqDecision cell.
Proof. solve_decision. Defined.

Abbreviation memory := (gmap Z cell).

Definition aligned4 (a : Z) : bool := a mod 4 =? 0.

(** [cell_ok w m p]: byte [p] is mapped, and writable when [w] is set. *)
Definition cell_ok (w : bool) (m : memory) (p : Z) : bool :=
  match m !! p with
  | Some c => implb w (writable c)
  | None => false
  end.

Fixpoint range_ok (w : bool) (m : memory) (p : Z) (n : nat) : bool :=
  match n with
  | O => true
  | S k => cell_ok w m p && range_ok w m (p + 1) k
  end.

(** A pointer is valid for a 32-bit load (store) when it is 4-byte aligned
    and the four bytes it designates are mapped (and writable). *)
Definition valid_read (m : memory) (a : Z) : bool :=
  aligned4 a && range_ok false m a 4.

Definition valid_write (m : memory) (a : Z) : bool :=
  aligned4 a && range_ok true m a 4.

Fixpoint load_bytes (m : memory) (p : Z) (n : nat) : option (list byte) :=
  match n with
  | O => Some []
  | S k =>
      match m !! p with
      | Some c =>
          match load_bytes m (p + 1) k with
          | Some bs => Some (content c :: bs)
          | None => None
          end
      | None => None
      end
  end.

Fixpoint store_bytes (m : memory) (p : Z) (bs : list byte) : option memory :=
  match bs with
  | [] => Some m
  | b :: r =>
      match m !! p with
      | Some c =>
          if writable c then store_bytes (<[p := Cell true b]> m) (p + 1) r
          else None
      | None => None
      end
  end.

(** Two memories hold the same bytes in the 32-bit slot at [a]. *)
Definition same_slot (m1 m2 : memory) (a : Z) : bool :=
  forallb (fun p => bool_decide (m1 !! p = m2 !! p)) [a; a + 1; a + 2; a + 3].

(** ** Execution state and monad *)

Inductive event : Type :=
| EvFence
| EvStore (address value : Z)
| EvLoad (address value : Z).

Record state : Type := State { mem : memory; trace : list event }.

Definition M (A : Type) : Type := state -> option (A * state).

#[global] Instance M_ret : MRet M := fun A x s => Some (x, s).

#[global] Instance M_bind : MBind M := fun A B k c s =>
  match c s with
  | Some (x, s') => k x s'
  | None => None
  end.

Definition emit (ev : event) (s : state) : state :=
  State (mem s) (trace s ++ [ev]).

(** [__sync_synchronize()]: a full barrier.  In one execution context it
    changes no memory; it is recorded in the trace. *)
Definition __sync_synchronize : M unit :=
  fun s => Some (tt, emit EvFence s).

(** ** Sequences of calls

    A client of the accessor issues calls one after the other. *)
Inductive call : Type :=
| CallWrite (address value : Z)
| CallRead (address : Z).

(** The pointer of a call is valid for the access the call makes. *)
Definition call_ok (m : memory) (c : call) : bool :=
  match c with
  | CallWrite a _ => valid_write m a
  | CallRead a => valid_read m a
  end.

(** The value of a call, if it passes one, is a [uint32_t]. *)
Definition call_uint32 (c : call) : bool :=
  match c with
  | CallWrite _ v => is_uint32 v
  | CallRead _ => true
  end.

(** The value of the last write to [a] among [cs], if there is one. *)
Fixpoint last_write (a : Z) (cs : list call) : option Z :=
  match cs with
  | [] => None
  | CallWrite a' v :: rest =>
      match last_write a rest with
      | Some x => Some x
      | None => if decide (a' = a) then Some v else None
      end
  | CallRead _ :: rest => last_write a rest
  end.

(** A trace is fenced when it is a sequence of accesses, each one between
    two barriers of its own. *)
Fixpoint fenced (t : list event) : bool :=
  match t with
  | [] => true
  | EvFence :: EvStore _ _ :: EvFence :: rest => fenced rest
  | EvFence :: EvLoad _ _ :: EvFence :: rest => fenced rest
  | _ => false
  end.

(** ** Sample states

    [sample_state] maps 16 writable zero bytes from address 4096 and 4
    read-only zero bytes from address 8192.  [sample_state_later] is the
    same machine after other calls: its trace is not empty and the word at
    4100 has been overwritten. *)
Fixpoint fresh_bytes (w : bool) (base : Z) (n : nat) (m : memory) : memory :=
  match n with
  | O => m
  | S k => <[base := Cell w x00]> (fresh_bytes w (base + 1) k m)
  end.

Definition sample_memory : memory :=
  fresh_bytes true 4096 16 (fresh_bytes false 8192 4 ∅).

Definition sample_state : state := State sample_memory [].

(** A machine that maps nothing but 4 read-only zero bytes from address
    8192: no address is valid for a store. *)
Definition read_only_state : state := State (fresh_bytes false 8192 4 ∅) [].

Definition sample_state_later : state :=
  State (<[4100 := Cell true xff]> sample_memory)
        [EvFence; EvStore 4100 255; EvFence; EvFence; EvLoad 4100 255; EvFence].

Definition sample_calls : list call :=
  [CallWrite 4096 7; CallRead 8192; CallWrite 4104 9; CallRead 4096;
   CallWrite 4096 8; CallRead 4100].

Section Accessor.

Variable endian : endianness.

(** [*((uint32_t const* )address)] *)
Definition load32 (m : memory) (address : Z) : option Z :=
  if aligned4 address
  then match load_bytes m address 4 with
       | Some bs => Some (decode_uint32 endian bs)
       | None => None
       end
  else None.

(** [*((uint32_t* )address) = value] *)
Definition store32 (m : memory) (address value : Z) : option memory :=
  if aligned4 address
  then store_bytes m address (encode_uint32 endian value)
  else None.

Definition load_uint32 (address : Z) : M Z :=
  fun s =>
    match load32 (mem s) address with
    | Some value => Some (value, emit (EvLoad address value) s)
    | None => None
    end.

Definition store_uint32 (address value : Z) : M unit :=
  fun s =>
    match store32 (mem s) address value with
    | Some m' => Some (tt, State m' (trace s ++ [EvStore address value]))
    | None => None
    end.

(** ** The two functions of [WriteMemSafe.c] *)

Definition writeMemSafe (address value : Z) : M unit :=
  __sync_synchronize ;;
  store_uint32 address value ;;
  __sync_synchronize.

Definition readMemSafe (address : Z) : M Z :=
  __sync_synchronize ;;
  value ← load_uint32 address;
  __sync_synchronize ;;
  mret value.

(** ** Test scenarios of the specification *)

(** [n] values alternating between [0x00000000] and [0xFFFFFFFF]; [hi]
    selects the first one. *)
Fixpoint alternating (n : nat) (hi : bool) : list Z :=
  match n with
  | O => []
  | S k => (if hi then UINT32_MAX else 0) :: alternating k (negb hi)
  end.

(** Write each value to [address] and read it back at once; the result is
    the list of values read. *)
Fixpoint write_read_each (address : Z) (values : list Z) : M (list Z) :=
  match values with
  | [] => mret []
  | v :: rest =>
      writeMemSafe address v ;;
      x ← readMemSafe address;
      xs ← write_read_each address rest;
      mret (x :: xs)
  end.

(** Run the calls in order; the result is the list of the values read. *)
Fixpoint run_calls (cs : list call) : M (list Z) :=
  match cs with
  | [] => mret []
  | CallWrite a v :: rest =>
      writeMemSafe a v ;;
      run_calls rest
  | CallRead a :: rest =>
      x ← readMemSafe a;
      xs ← run_calls rest;
      mret (x :: xs)
  end.

(** ** Bytes: conversions and the object representation *)

Lemma byte_to_Z_range (b : byte) : 0 <= byte_to_Z b < 256.
Proof.
  unfold byte_to_Z. pose proof (Byte.to_N_bounded b) as Hb. lia.
Qed.

Lemma byte_to_of_Z (z : Z) : byte_to_Z (byte_of_Z z) = z mod 256.
Proof.
  unfold byte_to_Z, byte_of_Z.
  assert (0 <= z mod 256 < 256) as Hr by (apply Z.mod_pos_bound; lia).
  destruct (Byte.of_N (Z.to_N (z mod 256))) as [b|] eqn:E.
  - apply Byte.to_of_N in E. rewrite E. lia.
  - apply Byte.of_N_None_iff in E. lia.
Qed.

Lemma length_le_bytes (n : nat) (v : Z) : length (le_bytes n v) = n.
Proof.
  revert v. induction n as [|k IH]; intros v; simpl; [reflexivity|].
  now rewrite IH.
Qed.

Lemma le_value_range (bs : list byte) :
  0 <= le_value bs < 256 ^ Z.of_nat (length bs).
Proof.
  induction bs as [|b r IH].
  - simpl. lia.
  - cbn [le_value length]. rewrite Nat2Z.inj_succ, Z.pow_succ_r by lia.
    pose proof (byte_to_Z_range b). lia.
Qed.

Lemma le_value_le_bytes (n : nat) (v : Z) :
  le_value (le_bytes n v) = v mod 256 ^ Z.of_nat n.
Proof.
  revert v. induction n as [|k IH]; intros v.
  - simpl. now rewrite Z.mod_1_r.
  - cbn [le_bytes le_value]. rewrite IH, byte_to_of_Z.
    rewrite Nat2Z.inj_succ, Z.pow_succ_r by lia.
    symmetry. apply Z.rem_mul_r; lia.
Qed.

Lemma is_uint32_range (v : Z) : is_uint32 v = true <-> 0 <= v < 2 ^ 32.
Proof. unfold is_uint32, UINT32_MAX. lia. Qed.

Lemma length_encode_uint32 (e : endianness) (v : Z) :
  length (encode_uint32 e v) = 4%nat.
Proof. destruct e; reflexivity. Qed.

Lemma decode_encode_uint32 (e : endianness) (v : Z) :
  is_uint32 v = true -> decode_uint32 e (encode_uint32 e v) = v.
Proof.
  intros Hv. apply is_uint32_range in Hv.
  assert (le_value (le_bytes 4 v) = v) as Hle.
  { rewrite le_value_le_bytes. apply Z.mod_small.
    change (256 ^ Z.of_nat 4) with (2 ^ 32). lia. }
  destruct e; unfold decode_uint32, encode_uint32.
  - exact Hle.
  - now rewrite rev_involutive.
Qed.

Lemma decode_uint32_range (e : endianness) (bs : list byte) :
  length bs = 4%nat -> is_uint32 (decode_uint32 e bs) = true.
Proof.
  intros Hlen. apply is_uint32_range.
  destruct e; unfold decode_uint32.
  - pose proof (le_value_range bs) as H. rewrite Hlen in H. exact H.
  - pose proof (le_value_range (rev bs)) as H.
    rewrite length_rev, Hlen in H. exact H.
Qed.

(** ** Memory: validity, loads and stores of byte ranges *)

Lemma cell_ok_insert_ne (w : bool) (m : memory) (p q : Z) (c : cell) :
  q <> p -> cell_ok w (<[q := c]> m) p = cell_ok w m p.
Proof. intros Hne. unfold cell_ok. now rewrite lookup_insert_ne. Qed.

Lemma cell_ok_insert (w : bool) (m : memory) (p q : Z) (b : byte) :
  cell_ok w m p = true -> cell_ok w (<[q := Cell true b]> m) p = true.
Proof.
  intros Hok. destruct (decide (q = p)) as [->|Hne].
  - unfold cell_ok. rewrite lookup_insert_eq. now destruct w.
  - now rewrite cell_ok_insert_ne.
Qed.

Lemma cell_ok_weaken (m : memory) (p : Z) :
  cell_ok true m p = true -> cell_ok false m p = true.
Proof. unfold cell_ok. now destruct (m !! p). Qed.

Lemma range_ok_insert (w : bool) (n : nat) (m : memory) (p q : Z) (b : byte) :
  range_ok w m p n = true -> range_ok w (<[q := Cell true b]> m) p n = true.
Proof.
  revert p. induction n as [|k IH]; intros p; simpl; [easy|].
  rewrite !andb_true_iff. intros [H1 H2]. split.
  - now apply cell_ok_insert.
  - now apply IH.
Qed.

Lemma range_ok_insert_out (w : bool) (n : nat) (m : memory) (p q : Z) (c : cell) :
  q < p -> range_ok w (<[q := c]> m) p n = range_ok w m p n.
Proof.
  revert p. induction n as [|k IH]; intros p Hlt; simpl; [easy|].
  rewrite cell_ok_insert_ne by lia. now rewrite IH by lia.
Qed.

Lemma range_ok_weaken (n : nat) (m : memory) (p : Z) :
  range_ok true m p n = true -> range_ok false m p n = true.
Proof.
  revert p. induction n as [|k IH]; intros p; simpl; [easy|].
  rewrite !andb_true_iff. intros [H1 H2]. split.
  - now apply cell_ok_weaken.
  - now apply IH.
Qed.

Lemma range_ok_ext (w : bool) (n : nat) (m1 m2 : memory) (p : Z) :
  (forall q, p <= q < p + Z.of_nat n -> m1 !! q = m2 !! q) ->
  range_ok w m1 p n = range_ok w m2 p n.
Proof.
  revert p. induction n as [|k IH]; intros p Hext; simpl; [easy|].
  unfold cell_ok at 1 2. rewrite (Hext p) by lia.
  f_equal. apply IH. intros q Hq. apply Hext. lia.
Qed.

Lemma valid_write_read (m : memory) (a : Z) :
  valid_write m a = true -> valid_read m a = true.
Proof.
  unfold valid_write, valid_read. rewrite !andb_true_iff.
  intros [Ha Hr]. split; [exact Ha|]. now apply range_ok_weaken.
Qed.

Lemma load_bytes_Some (n : nat) (m : memory) (p : Z) :
  range_ok false m p n = true ->
  exists bs, load_bytes m p n = Some bs /\ length bs = n.
Proof.
  revert p. induction n as [|k IH]; intros p; simpl.
  - intros _. now exists [].
  - rewrite andb_true_iff. unfold cell_ok. intros [Hc Hr].
    destruct (m !! p) as [c|]; [|discriminate].
    destruct (IH _ Hr) as (bs & -> & Hlen).
    exists (content c :: bs). simpl. now rewrite Hlen.
Qed.

Lemma load_bytes_range_ok (n : nat) (m : memory) (p : Z) (bs : list byte) :
  load_bytes m p n = Some bs -> range_ok false m p n = true.
Proof.
  revert p bs. induction n as [|k IH]; intros p bs; simpl; [easy|].
  unfold cell_ok. destruct (m !! p) as [c|]; [|discriminate].
  destruct (load_bytes m (p + 1) k) as [r|] eqn:E; [|discriminate].
  intros _. simpl. now apply (IH _ r).
Qed.

Lemma load_bytes_lookup (n : nat) (m : memory) (p : Z) (bs : list byte) :
  load_bytes m p n = Some bs ->
  forall i, (i < n)%nat -> content <$> (m !! (p + Z.of_nat i)) = bs !! i.
Proof.
  revert p bs. induction n as [|k IH]; intros p bs; simpl; [intros _ i; lia|].
  destruct (m !! p) as [c|] eqn:E; [|discriminate].
  destruct (load_bytes m (p + 1) k) as [r|] eqn:Er; [|discriminate].
  intros [= <-] [|j] Hj.
  - now rewrite Z.add_0_r, E.
  - replace (p + Z.of_nat (S j)) with (p + 1 + Z.of_nat j) by lia.
    apply (IH _ _ Er). lia.
Qed.

Lemma load_bytes_ext (n : nat) (m1 m2 : memory) (p : Z) :
  (forall q, p <= q < p + Z.of_nat n -> m1 !! q = m2 !! q) ->
  load_bytes m1 p n = load_bytes m2 p n.
Proof.
  revert p. induction n as [|k IH]; intros p Hext; simpl; [easy|].
  rewrite (Hext p) by lia. rewrite (IH (p + 1)); [reflexivity|].
  intros q Hq. apply Hext. lia.
Qed.

Lemma store_bytes_Some (bs : list byte) (m : memory) (p : Z) :
  range_ok true m p (length bs) = true ->
  exists m', store_bytes m p bs = Some m'.
Proof.
  revert m p. induction bs as [|b r IH]; intros m p; simpl.
  - intros _. now exists m.
  - rewrite andb_true_iff. unfold cell_ok. intros [Hc Hr].
    destruct (m !! p) as [c|]; [|discriminate]. simpl in Hc. rewrite Hc.
    apply IH. now apply range_ok_insert.
Qed.

Lemma store_bytes_range_ok (bs : list byte) (m m' : memory) (p : Z) :
  store_bytes m p bs = Some m' -> range_ok true m p (length bs) = true.
Proof.
  revert m p. induction bs as [|b r IH]; intros m p; simpl; [easy|].
  unfold cell_ok. destruct (m !! p) as [c|]; [|discriminate].
  destruct (writable c); [|discriminate]. intros Hst. simpl.
  apply IH in Hst. now rewrite range_ok_insert_out in Hst by lia.
Qed.

Lemma store_bytes_other (bs : list byte) (m m' : memory) (p q : Z) :
  store_bytes m p bs = Some m' ->
  q < p \/ p + Z.of_nat (length bs) <= q ->
  m' !! q = m !! q.
Proof.
  revert m p. induction bs as [|b r IH]; intros m p; simpl.
  - intros [= ->] _. reflexivity.
  - destruct (m !! p) as [c|] eqn:E; [|discriminate].
    destruct (writable c); [|discriminate]. intros Hst Hq.
    rewrite (IH _ _ Hst) by lia. apply lookup_insert_ne. lia.
Qed.

Lemma store_bytes_keeps_ok (w : bool) (n : nat) (bs : list byte)
  (m m' : memory) (p q : Z) :
  store_bytes m p bs = Some m' ->
  range_ok w m q n = true -> range_ok w m' q n = true.
Proof.
  revert m p. induction bs as [|b r IH]; intros m p; simpl.
  - now intros [= ->].
  - destruct (m !! p) as [c|]; [|discriminate].
    destruct (writable c); [|discriminate]. intros Hst Hok.
    apply (IH _ _ Hst). now apply range_ok_insert.
Qed.

Lemma load_store_bytes (bs : list byte) (m m' : memory) (p : Z) :
  store_bytes m p bs = Some m' -> load_bytes m' p (length bs) = Some bs.
Proof.
  revert m p. induction bs as [|b r IH]; intros m p; simpl; [easy|].
  destruct (m !! p) as [c|]; [|discriminate].
  destruct (writable c); [|discriminate]. intros Hst.
  rewrite (store_bytes_other _ _ _ _ p Hst) by lia.
  rewrite lookup_insert_eq. now rewrite (IH _ _ Hst).
Qed.

Lemma same_slot_spec (m1 m2 : memory) (a : Z) :
  same_slot m1 m2 a = true <->
  forall q, a <= q < a + 4 -> m1 !! q = m2 !! q.
Proof.
  unfold same_slot. cbn [forallb]. rewrite !andb_true_iff, !bool_decide_eq_true.
  split.
  - intros (H0 & H1 & H2 & H3 & _) q Hq.
    assert (q = a \/ q = a + 1 \/ q = a + 2 \/ q = a + 3) as Hc by lia.
    destruct Hc as [->|[->|[->| ->]]]; assumption.
  - intros H. repeat split; apply H; lia.
Qed.

Lemma store_bytes_slot (bs : list byte) (m1 m2 m1' m2' : memory) (p q : Z) :
  store_bytes m1 p bs = Some m1' ->
  store_bytes m2 p bs = Some m2' ->
  p <= q < p + Z.of_nat (length bs) ->
  m1' !! q = m2' !! q.
Proof.
  revert m1 m2 p. induction bs as [|b r IH]; intros m1 m2 p; simpl; [lia|].
  destruct (m1 !! p) as [c1|]; [|discriminate].
  destruct (writable c1); [|discriminate].
  destruct (m2 !! p) as [c2|]; [|discriminate].
  destruct (writable c2); [|discriminate].
  intros H1 H2 Hq. destruct (decide (q = p)) as [->|Hne].
  - rewrite (store_bytes_other _ _ _ _ p H1), (store_bytes_other _ _ _ _ p H2) by lia.
    now rewrite !lookup_insert_eq.
  - apply (IH _ _ _ H1 H2). lia.
Qed.

(** ** The accessor on one execution context *)

Lemma store32_Some (m : memory) (a v : Z) :
  valid_write m a = true -> exists m', store32 m a v = Some m'.
Proof.
  unfold valid_write, store32. rewrite andb_true_iff. intros [-> Hr].
  apply store_bytes_Some. now rewrite length_encode_uint32.
Qed.

Lemma store32_valid (m m' : memory) (a v : Z) :
  store32 m a v = Some m' -> valid_write m a = true.
Proof.
  unfold valid_write, store32. destruct (aligned4 a); [|discriminate].
  intros Hst. apply store_bytes_range_ok in Hst.
  now rewrite length_encode_uint32 in Hst.
Qed.

Lemma store32_None (m : memory) (a v : Z) :
  valid_write m a = false -> store32 m a v = None.
Proof.
  intros Hv. destruct (store32 m a v) as [m'|] eqn:E; [|reflexivity].
  apply store32_valid in E. congruence.
Qed.

Lemma load32_Some (m : memory) (a : Z) :
  valid_read m a = true ->
  exists x, load32 m a = Some x /\ 0 <= x < 2 ^ 32.
Proof.
  unfold valid_read, load32. rewrite andb_true_iff. intros [-> Hr].
  destruct (load_bytes_Some _ _ _ Hr) as (bs & -> & Hlen).
  eexists. split; [reflexivity|].
  apply is_uint32_range. now apply decode_uint32_range.
Qed.

Lemma load32_valid (m : memory) (a x : Z) :
  load32 m a = Some x -> valid_read m a = true.
Proof.
  unfold valid_read, load32. destruct (aligned4 a); [|discriminate].
  destruct (load_bytes m a 4) as [bs|] eqn:E; [|discriminate].
  intros _. now apply load_bytes_range_ok in E.
Qed.

Lemma load32_None (m : memory) (a : Z) :
  valid_read m a = false -> load32 m a = None.
Proof.
  intros Hv. destruct (load32 m a) as [x|] eqn:E; [|reflexivity].
  apply load32_valid in E. congruence.
Qed.

Lemma load32_ext (m1 m2 : memory) (a : Z) :
  (forall q, a <= q < a + 4 -> m1 !! q = m2 !! q) ->
  load32 m1 a = load32 m2 a.
Proof.
  intros Hext. unfold load32.
  now rewrite (load_bytes_ext 4 m1 m2 a Hext).
Qed.

Lemma load32_store32 (m m' : memory) (a v : Z) :
  0 <= v < 2 ^ 32 -> store32 m a v = Some m' -> load32 m' a = Some v.
Proof.
  intros Hv. unfold store32, load32.
  destruct (aligned4 a); [|discriminate]. intros Hst.
  apply load_store_bytes in Hst. rewrite length_encode_uint32 in Hst.
  rewrite Hst, decode_encode_uint32; [reflexivity|].
  now apply is_uint32_range.
Qed.

Lemma store32_other (m m' : memory) (a v q : Z) :
  store32 m a v = Some m' -> q < a \/ a + 4 <= q -> m' !! q = m !! q.
Proof.
  unfold store32. destruct (aligned4 a); [|discriminate].
  intros Hst Hq. apply (store_bytes_other _ _ _ _ _ Hst).
  rewrite length_encode_uint32. lia.
Qed.

Lemma load32_store32_other (m m' : memory) (a b v : Z) :
  store32 m b v = Some m' -> a + 4 <= b \/ b + 4 <= a ->
  load32 m' a = load32 m a.
Proof.
  intros Hst Hab. apply load32_ext. intros q Hq.
  apply (store32_other _ _ _ _ _ Hst). lia.
Qed.

Lemma store32_keeps_valid_write (m m' : memory) (a b v : Z) :
  store32 m b v = Some m' -> valid_write m a = true -> valid_write m' a = true.
Proof.
  unfold store32, valid_write. destruct (aligned4 b); [|discriminate].
  rewrite !andb_true_iff. intros Hst [Ha Hr]. split; [exact Ha|].
  now apply (store_bytes_keeps_ok _ _ _ _ _ _ _ Hst).
Qed.

(** What a call does to the state, in one equation each. *)
Lemma writeMemSafe_run (a v : Z) (s : state) :
  writeMemSafe a v s =
  match store32 (mem s) a v with
  | Some m' => Some (tt, State m' (trace s ++ [EvFence; EvStore a v; EvFence]))
  | None => None
  end.
Proof.
  unfold writeMemSafe, mbind, M_bind, __sync_synchronize, store_uint32, emit.
  cbn [mem trace]. destruct (store32 (mem s) a v) as [m'|]; [|reflexivity].
  cbn [mem trace]. now rewrite <- !app_assoc.
Qed.

Lemma readMemSafe_run (a : Z) (s : state) :
  readMemSafe a s =
  match load32 (mem s) a with
  | Some x => Some (x, State (mem s) (trace s ++ [EvFence; EvLoad a x; EvFence]))
  | None => None
  end.
Proof.
  unfold readMemSafe, mbind, M_bind, mret, M_ret, __sync_synchronize,
    load_uint32, emit.
  cbn [mem trace]. destruct (load32 (mem s) a) as [x|]; [|reflexivity].
  cbn [mem trace]. now rewrite <- !app_assoc.
Qed.


Lemma valid_write_ext (m1 m2 : memory) (a : Z) :
  (forall q, a <= q < a + 4 -> m1 !! q = m2 !! q) ->
  valid_write m1 a = valid_write m2 a.
Proof.
  intros Hext. unfold valid_write. f_equal. now apply range_ok_ext.
Qed.

Lemma store32_slot (m1 m2 m1' m2' : memory) (a v q : Z) :
  store32 m1 a v = Some m1' -> store32 m2 a v = Some m2' ->
  a <= q < a + 4 -> m1' !! q = m2' !! q.
Proof.
  unfold store32. destruct (aligned4 a); [|discriminate].
  intros H1 H2 Hq. apply (store_bytes_slot _ _ _ _ _ _ _ H1 H2).
  now rewrite length_encode_uint32.
Qed.

Lemma alternating_uint32 (n : nat) (hi : bool) :
  Forall (fun v => 0 <= v < 2 ^ 32) (alternating n hi).
Proof.
  revert hi. induction n as [|k IH]; intros hi; simpl; constructor.
  - destruct hi; unfold UINT32_MAX; lia.
  - apply IH.
Qed.

Lemma write_read_each_values (a : Z) (vs : list Z) :
  Forall (fun v => 0 <= v < 2 ^ 32) vs ->
  forall s, valid_write (mem s) a = true ->
  exists s', write_read_each a vs s = Some (vs, s').
Proof.
  induction 1 as [|v r Hv Hr IH]; intros s Hok.
  - exists s. reflexivity.
  - cbn [write_read_each]. unfold mbind, M_bind, mret, M_ret.
    rewrite writeMemSafe_run.
    destruct (store32_Some (mem s) a v Hok) as [m' Hst]. rewrite Hst.
    rewrite readMemSafe_run. cbn [mem].
    rewrite (load32_store32 _ _ _ _ Hv Hst).
    pose proof (store32_keeps_valid_write _ _ a _ _ Hst Hok) as Hok'.
    match goal with
    | |- context [write_read_each a r ?t] => destruct (IH t Hok') as [s' ->]
    end.
    now exists s'.
Qed.

(** Two distinct aligned addresses designate slots that do not overlap. *)
Lemma aligned_distinct_disjoint (a b : Z) :
  aligned4 a = true -> aligned4 b = true -> a <> b ->
  a + 4 <= b \/ b + 4 <= a.
Proof.
  unfold aligned4. rewrite !Z.eqb_eq. intros Ha Hb Hne.
  pose proof (Z.div_mod a 4) as Da. pose proof (Z.div_mod b 4) as Db. lia.
Qed.

(** ** Properties of the specification *)

(** C1 (round trip).  For every 32-bit value [v] and every address [a] that
    is 4-byte aligned and valid for a store, [writeMemSafe a v] followed by
    [readMemSafe a] returns [v]. *)
Theorem write_read_round_trip (a v : Z) (s : state) :
  0 <= v < 2 ^ 32 ->
  valid_write (mem s) a = true ->
  exists s', (writeMemSafe a v ;; readMemSafe a) s = Some (v, s').
Proof.
  intros Hv Hok. unfold mbind, M_bind. rewrite writeMemSafe_run.
  destruct (store32_Some (mem s) a v Hok) as [m' Hst]. rewrite Hst.
  rewrite readMemSafe_run. cbn [mem].
  rewrite (load32_store32 _ _ _ _ Hv Hst). eexists. reflexivity.
Qed.

(** C2 (alternating writes).  For every valid aligned address [a], writing
    [n] values alternating between [0x00000000] and [0xFFFFFFFF] to [a],
    each write followed at once by a read of [a], makes every read return
    the value just written: the list of values read is the list written. *)
Theorem alternating_write_read (a : Z) (n : nat) (hi : bool) (s : state) :
  valid_write (mem s) a = true ->
  exists s',
    write_read_each a (alternating n hi) s = Some (alternating n hi, s').
Proof.
  intros Hok. apply write_read_each_values; [apply alternating_uint32|exact Hok].
Qed.

(** C3 (idempotence of read).  For every address valid for a load and every
    state, two calls of [readMemSafe] in succession both succeed and return
    the same value. *)
Theorem read_twice_same (a : Z) (s : state) :
  valid_read (mem s) a = true ->
  exists x s1 s2,
    readMemSafe a s = Some (x, s1) /\ readMemSafe a s1 = Some (x, s2).
Proof.
  intros Hok. destruct (load32_Some _ _ Hok) as (x & Hld & _).
  exists x. rewrite readMemSafe_run, Hld. eexists. eexists.
  split; [reflexivity|]. rewrite readMemSafe_run. cbn [mem]. now rewrite Hld.
Qed.

(** C4 (independence).  For valid addresses [a] and [b] whose 32-bit slots
    do not overlap and 32-bit values [v1], [v2]: after
    [writeMemSafe a v1; writeMemSafe b v2], [readMemSafe a] returns [v1]
    and [readMemSafe b] returns [v2]. *)
Theorem independent_slots (a b v1 v2 : Z) (s : state) :
  0 <= v1 < 2 ^ 32 ->
  0 <= v2 < 2 ^ 32 ->
  valid_write (mem s) a = true ->
  valid_write (mem s) b = true ->
  a + 4 <= b \/ b + 4 <= a ->
  exists s2,
    (writeMemSafe a v1 ;; writeMemSafe b v2) s = Some (tt, s2) /\
    fst <$> readMemSafe a s2 = Some v1 /\
    fst <$> readMemSafe b s2 = Some v2.
Proof.
  intros Hv1 Hv2 Ha Hb Hdisj. unfold mbind, M_bind. rewrite writeMemSafe_run.
  destruct (store32_Some (mem s) a v1 Ha) as [m1 Hst1]. rewrite Hst1.
  rewrite writeMemSafe_run. cbn [mem].
  pose proof (store32_keeps_valid_write _ _ b _ _ Hst1 Hb) as Hb1.
  destruct (store32_Some m1 b v2 Hb1) as [m2 Hst2]. rewrite Hst2.
  eexists. split; [reflexivity|]. rewrite !readMemSafe_run. cbn [mem].
  rewrite (load32_store32_other _ _ a _ _ Hst2 Hdisj).
  rewrite (load32_store32 _ _ _ _ Hv1 Hst1).
  rewrite (load32_store32 _ _ _ _ Hv2 Hst2).
  split; reflexivity.
Qed.

(** C5 (write is fence, store, fence).  For every address [a] and 32-bit
    value [v]: when [a] is valid for a store, [writeMemSafe a v] returns
    [tt] (no value) and extends the trace by exactly a fence, the store of
    [v] at [a] and a second fence; the new memory is the result of that one
    store, so the slot at [a] holds [v] and every byte outside it is as
    before.  When [a] is not valid the call is undefined. *)
Theorem writeMemSafe_sequence (a v : Z) (s : state) :
  0 <= v < 2 ^ 32 ->
  if valid_write (mem s) a
  then exists s',
         writeMemSafe a v s = Some (tt, s') /\
         trace s' = trace s ++ [EvFence; EvStore a v; EvFence] /\
         store32 (mem s) a v = Some (mem s') /\
         load32 (mem s') a = Some v /\
         (forall q, q < a \/ a + 4 <= q -> mem s' !! q = mem s !! q)
  else writeMemSafe a v s = None.
Proof.
  intros Hv. rewrite writeMemSafe_run.
  destruct (valid_write (mem s) a) eqn:Hok.
  - destruct (store32_Some (mem s) a v Hok) as [m' Hst]. rewrite Hst.
    eexists. split; [reflexivity|]. cbn [mem trace].
    split; [reflexivity|]. split; [reflexivity|]. split.
    + exact (load32_store32 _ _ _ _ Hv Hst).
    + intros q Hq. exact (store32_other _ _ _ _ _ Hst Hq).
  - now rewrite store32_None.
Qed.

(** C6 (read is fence, load, fence).  For every address [a]: when [a] is
    valid for a load, [readMemSafe a] extends the trace by exactly a fence,
    the load at [a] and a second fence, leaves the memory as it is, and
    returns the loaded 32-bit value unmodified: the value [x] it returns is
    the one the four bytes [bs] held by the memory at [a .. a + 3] denote in
    the byte order of the target.  When [a] is not valid the call is
    undefined. *)
Theorem readMemSafe_sequence (a : Z) (s : state) :
  if valid_read (mem s) a
  then exists bs x,
         load_bytes (mem s) a 4 = Some bs /\
         (forall i, (i < 4)%nat ->
                    content <$> (mem s !! (a + Z.of_nat i)) = bs !! i) /\
         x = decode_uint32 endian bs /\
         load32 (mem s) a = Some x /\
         0 <= x < 2 ^ 32 /\
         readMemSafe a s =
           Some (x, State (mem s) (trace s ++ [EvFence; EvLoad a x; EvFence]))
  else readMemSafe a s = None.
Proof.
  rewrite readMemSafe_run. destruct (valid_read (mem s) a) eqn:Hok.
  - pose proof Hok as Hok'. unfold valid_read in Hok'.
    apply andb_true_iff in Hok'. destruct Hok' as [Ha Hr].
    destruct (load_bytes_Some _ _ _ Hr) as (bs & Hbs & Hlen).
    assert (load32 (mem s) a = Some (decode_uint32 endian bs)) as Hld.
    { unfold load32. now rewrite Ha, Hbs. }
    exists bs, (decode_uint32 endian bs).
    split; [exact Hbs|]. split; [exact (load_bytes_lookup _ _ _ _ Hbs)|].
    split; [reflexivity|]. split; [exact Hld|]. split.
    + apply is_uint32_range. now apply decode_uint32_range.
    + now rewrite Hld.
  - now rewrite load32_None.
Qed.

(** C8 (no retained state).  Take two states, whatever their traces of
    earlier calls, whose memories hold the same bytes in the slot at [a].
    Then [readMemSafe a] returns the same value in both, and
    [writeMemSafe a v] is defined in both or in neither; when defined, the
    two resulting memories again agree on the slot, and they are equal
    when the two memories were equal. *)
Theorem no_retained_state (a v : Z) (s1 s2 : state) :
  same_slot (mem s1) (mem s2) a = true ->
  fst <$> readMemSafe a s1 = fst <$> readMemSafe a s2 /\
  match writeMemSafe a v s1, writeMemSafe a v s2 with
  | Some (_, s1'), Some (_, s2') =>
      same_slot (mem s1') (mem s2') a = true /\
      (mem s1 = mem s2 -> mem s1' = mem s2')
  | None, None => True
  | _, _ => False
  end.
Proof.
  intros Hsame. pose proof (proj1 (same_slot_spec _ _ _) Hsame) as Hslot.
  clear Hsame. rename Hslot into Hsame. split.
  - rewrite !readMemSafe_run, (load32_ext _ _ _ Hsame).
    now destruct (load32 (mem s2) a).
  - rewrite !writeMemSafe_run.
    pose proof (valid_write_ext _ _ _ Hsame) as Hvalid.
    destruct (store32 (mem s1) a v) as [m1|] eqn:E1;
      destruct (store32 (mem s2) a v) as [m2|] eqn:E2; cbn [mem].
    + split.
      * apply (proj2 (same_slot_spec _ _ _)). intros q Hq.
        exact (store32_slot _ _ _ _ _ _ _ E1 E2 Hq).
      * intros Heq. rewrite Heq in E1. congruence.
    + apply store32_valid in E1. rewrite Hvalid in E1.
      destruct (store32_Some _ _ v E1) as [m2 Hst]. congruence.
    + apply store32_valid in E2. rewrite <- Hvalid in E2.
      destruct (store32_Some _ _ v E2) as [m1 Hst]. congruence.
    + exact I.
Qed.

(** C9 (termination).  [writeMemSafe a v] returns a result in every state
    where [a] is valid for a store, and [readMemSafe b] returns a result in
    every state where [b] is valid for a load; each does so after exactly
    three steps (fence, access, fence) whatever the value and the memory
    contents.  Neither half needs the condition of the other. *)
Theorem accessors_terminate (a b v : Z) (s : state) :
  (valid_write (mem s) a = true ->
   exists s',
     writeMemSafe a v s = Some (tt, s') /\
     length (trace s') = (length (trace s) + 3)%nat) /\
  (valid_read (mem s) b = true ->
   exists x s',
     readMemSafe b s = Some (x, s') /\
     length (trace s') = (length (trace s) + 3)%nat).
Proof.
  split.
  - intros Ha. rewrite writeMemSafe_run.
    destruct (store32_Some (mem s) a v Ha) as [m' ->].
    eexists. split; [reflexivity|]. cbn [trace]. now rewrite length_app.
  - intros Hb. rewrite readMemSafe_run.
    destruct (load32_Some _ _ Hb) as (x & -> & _).
    eexists. eexists. split; [reflexivity|]. cbn [trace]. now rewrite length_app.
Qed.

(** C10 (read changes no memory).  For every address valid for a load and
    every state, [readMemSafe a] returns with the whole memory, the slot at
    [a] included, exactly as it was before the call. *)
Theorem read_preserves_memory (a : Z) (s : state) :
  valid_read (mem s) a = true ->
  exists x s', readMemSafe a s = Some (x, s') /\ mem s' = mem s.
Proof.
  intros Hok. rewrite readMemSafe_run.
  destruct (load32_Some _ _ Hok) as (x & -> & _).
  eexists. eexists. split; reflexivity.
Qed.

(** ** Further lemmas: representation, permissions, sequences of calls *)

Lemma byte_of_to_Z (b : byte) (x : Z) : byte_of_Z (byte_to_Z b + 256 * x) = b.
Proof.
  unfold byte_of_Z.
  replace ((byte_to_Z b + 256 * x) mod 256) with (byte_to_Z b).
  - unfold byte_to_Z. now rewrite N2Z.id, Byte.of_to_N.
  - pose proof (byte_to_Z_range b) as Hb.
    replace (byte_to_Z b + 256 * x) with (byte_to_Z b + x * 256) by lia.
    rewrite Z.mod_add by lia. symmetry. now apply Z.mod_small.
Qed.

Lemma le_bytes_le_value (bs : list byte) :
  le_bytes (length bs) (le_value bs) = bs.
Proof.
  induction bs as [|b r IH]; [reflexivity|].
  cbn [length le_value le_bytes]. rewrite byte_of_to_Z. f_equal.
  pose proof (byte_to_Z_range b) as Hb.
  replace (byte_to_Z b + 256 * le_value r) with (byte_to_Z b + le_value r * 256) by lia.
  rewrite Z.div_add by lia. rewrite Z.div_small by lia. exact IH.
Qed.

Lemma encode_decode_uint32 (e : endianness) (bs : list byte) :
  length bs = 4%nat -> encode_uint32 e (decode_uint32 e bs) = bs.
Proof.
  intros Hlen. destruct e; unfold encode_uint32, decode_uint32.
  - rewrite <- Hlen. apply le_bytes_le_value.
  - assert (length (rev bs) = 4%nat) as Hrev by now rewrite length_rev.
    rewrite <- Hrev, le_bytes_le_value. apply rev_involutive.
Qed.

Lemma store_bytes_same (n : nat) (m : memory) (p : Z) (bs : list byte) :
  load_bytes m p n = Some bs ->
  range_ok true m p n = true ->
  store_bytes m p bs = Some m.
Proof.
  revert p bs. induction n as [|k IH]; intros p bs; simpl.
  - now intros [= <-] _.
  - unfold cell_ok. destruct (m !! p) as [c|] eqn:E; [|discriminate].
    destruct (load_bytes m (p + 1) k) as [r|] eqn:Er; [|discriminate].
    intros [= <-]. rewrite andb_true_iff. simpl. intros [Hw Hr].
    rewrite E, Hw. destruct c as [w b]. simpl in Hw. subst w. simpl.
    rewrite (insert_id m p _ E). now apply IH.
Qed.

Lemma store_bytes_cell_ok (w : bool) (bs : list byte) (m m' : memory) (p q : Z) :
  store_bytes m p bs = Some m' -> cell_ok w m' q = cell_ok w m q.
Proof.
  revert m p. induction bs as [|b r IH]; intros m p; simpl.
  - now intros [= ->].
  - destruct (m !! p) as [c|] eqn:E; [|discriminate].
    destruct (writable c) eqn:Hw; [|discriminate]. intros Hst.
    rewrite (IH _ _ Hst). destruct (decide (p = q)) as [->|Hne].
    + unfold cell_ok. rewrite lookup_insert_eq, E. simpl. now rewrite Hw.
    + now apply cell_ok_insert_ne.
Qed.

Lemma store_bytes_range_eq (w : bool) (n : nat) (bs : list byte)
  (m m' : memory) (p q : Z) :
  store_bytes m p bs = Some m' -> range_ok w m' q n = range_ok w m q n.
Proof.
  intros Hst. revert q. induction n as [|k IH]; intros q; simpl; [reflexivity|].
  now rewrite (store_bytes_cell_ok w _ _ _ _ q Hst), IH.
Qed.

Lemma store_bytes_dom (bs : list byte) (m m' : memory) (p : Z) :
  store_bytes m p bs = Some m' -> dom m' = dom m.
Proof.
  revert m p. induction bs as [|b r IH]; intros m p; simpl.
  - now intros [= ->].
  - destruct (m !! p) as [c|] eqn:E; [|discriminate].
    destruct (writable c); [|discriminate]. intros Hst.
    rewrite (IH _ _ Hst). apply dom_insert_lookup_L. now exists c.
Qed.

Lemma store32_valid_read_eq (m m' : memory) (a b v : Z) :
  store32 m a v = Some m' -> valid_read m' b = valid_read m b.
Proof.
  unfold store32, valid_read. destruct (aligned4 a); [|discriminate].
  intros Hst. now rewrite (store_bytes_range_eq false 4 _ _ _ _ b Hst).
Qed.

Lemma store32_valid_write_eq (m m' : memory) (a b v : Z) :
  store32 m a v = Some m' -> valid_write m' b = valid_write m b.
Proof.
  unfold store32, valid_write. destruct (aligned4 a); [|discriminate].
  intros Hst. now rewrite (store_bytes_range_eq true 4 _ _ _ _ b Hst).
Qed.

Lemma store32_dom (m m' : memory) (a v : Z) :
  store32 m a v = Some m' -> dom m' = dom m.
Proof.
  unfold store32. destruct (aligned4 a); [|discriminate]. apply store_bytes_dom.
Qed.

Lemma valid_write_aligned (m : memory) (a : Z) :
  valid_write m a = true -> aligned4 a = true.
Proof. unfold valid_write. rewrite andb_true_iff. now intros [Ha _]. Qed.

(** A load after a store, at any address. *)
Lemma load32_after_store32 (m m' : memory) (a b v : Z) :
  0 <= v < 2 ^ 32 ->
  store32 m a v = Some m' ->
  load32 m' b = if decide (b = a) then Some v else load32 m b.
Proof.
  intros Hv Hst. destruct (decide (b = a)) as [->|Hne].
  - exact (load32_store32 _ _ _ _ Hv Hst).
  - destruct (aligned4 b) eqn:Hb.
    + apply (load32_store32_other _ _ _ _ _ Hst).
      apply aligned_distinct_disjoint; [exact Hb| |exact Hne].
      apply (valid_write_aligned m). exact (store32_valid _ _ _ _ Hst).
    + unfold load32. now rewrite Hb.
Qed.

(** A store over a store at the same address. *)
Lemma store32_store32 (m m1 m2 : memory) (a v1 v2 : Z) :
  store32 m a v1 = Some m1 ->
  store32 m a v2 = Some m2 ->
  store32 m1 a v2 = Some m2.
Proof.
  intros H1 H2.
  pose proof (store32_valid _ _ _ _ H1) as Hok.
  rewrite <- (store32_valid_write_eq _ _ _ a _ H1) in Hok.
  destruct (store32_Some _ _ v2 Hok) as [m2' H12]. rewrite H12. f_equal.
  apply map_eq. intros q.
  destruct (decide (a <= q < a + 4)) as [Hin|Hout].
  - exact (store32_slot _ _ _ _ _ _ _ H12 H2 Hin).
  - rewrite (store32_other _ _ _ _ q H12), (store32_other _ _ _ _ q H1),
      (store32_other _ _ _ _ q H2) by lia. reflexivity.
Qed.

(** Two stores at slots that do not overlap, in either order. *)
Lemma store32_commute (m ma mb mab mba : memory) (a b v1 v2 : Z) :
  a + 4 <= b \/ b + 4 <= a ->
  store32 m a v1 = Some ma -> store32 ma b v2 = Some mab ->
  store32 m b v2 = Some mb -> store32 mb a v1 = Some mba ->
  mab = mba.
Proof.
  intros Hdisj Ha Hab Hb Hba. apply map_eq. intros q.
  destruct (decide (a <= q < a + 4)) as [Hina|Houta].
  - rewrite (store32_other _ _ _ _ q Hab) by lia.
    exact (store32_slot _ _ _ _ _ _ _ Ha Hba Hina).
  - rewrite (store32_other _ _ _ _ q Hba) by lia.
    destruct (decide (b <= q < b + 4)) as [Hinb|Houtb].
    + exact (store32_slot _ _ _ _ _ _ _ Hab Hb Hinb).
    + rewrite (store32_other _ _ _ _ q Hab), (store32_other _ _ _ _ q Ha),
        (store32_other _ _ _ _ q Hb) by lia. reflexivity.
Qed.

(** Storing the value a slot already holds. *)
Lemma store32_loaded (m : memory) (a x : Z) :
  valid_write m a = true -> load32 m a = Some x -> store32 m a x = Some m.
Proof.
  unfold valid_write, load32, store32. rewrite andb_true_iff. intros [-> Hr].
  destruct (load_bytes m a 4) as [bs|] eqn:E; [|discriminate]. intros [= <-].
  destruct (load_bytes_Some _ _ _ (range_ok_weaken _ _ _ Hr)) as (bs' & E' & Hlen).
  rewrite E in E'. injection E' as <-.
  rewrite encode_decode_uint32 by exact Hlen.
  exact (store_bytes_same 4 _ _ _ E Hr).
Qed.

Lemma readMemSafe_value (a : Z) (s : state) :
  fst <$> readMemSafe a s = load32 (mem s) a.
Proof. rewrite readMemSafe_run. now destruct (load32 (mem s) a). Qed.

Lemma run_calls_write (a v : Z) (rest : list call) (s : state) :
  run_calls (CallWrite a v :: rest) s =
  match store32 (mem s) a v with
  | Some m' =>
      run_calls rest (State m' (trace s ++ [EvFence; EvStore a v; EvFence]))
  | None => None
  end.
Proof.
  cbn [run_calls]. unfold mbind, M_bind. rewrite writeMemSafe_run.
  now destruct (store32 (mem s) a v).
Qed.

Lemma run_calls_read (a : Z) (rest : list call) (s : state) :
  run_calls (CallRead a :: rest) s =
  match load32 (mem s) a with
  | Some x =>
      match run_calls rest (State (mem s) (trace s ++ [EvFence; EvLoad a x; EvFence])) with
      | Some (xs, s') => Some (x :: xs, s')
      | None => None
      end
  | None => None
  end.
Proof.
  cbn [run_calls]. unfold mbind, M_bind, mret, M_ret. rewrite readMemSafe_run.
  now destruct (load32 (mem s) a).
Qed.

Lemma forallb_call_ok_store32 (cs : list call) (m m' : memory) (a v : Z) :
  store32 m a v = Some m' ->
  forallb (call_ok m') cs = forallb (call_ok m) cs.
Proof.
  intros Hst. induction cs as [|c r IH]; [reflexivity|].
  cbn [forallb]. rewrite IH. f_equal. destruct c as [b w|b]; cbn [call_ok].
  - exact (store32_valid_write_eq _ _ _ _ _ Hst).
  - exact (store32_valid_read_eq _ _ _ _ _ Hst).
Qed.

Lemma run_calls_Some (cs : list call) (s : state) :
  forallb (call_ok (mem s)) cs = true ->
  exists rs s', run_calls cs s = Some (rs, s').
Proof.
  revert s. induction cs as [|c r IH]; intros s.
  - intros _. exists [], s. reflexivity.
  - cbn [forallb]. rewrite andb_true_iff. intros [Hc Hr].
    destruct c as [a v|a]; cbn [call_ok] in Hc.
    + rewrite run_calls_write. destruct (store32_Some _ _ v Hc) as [m' Hst].
      rewrite Hst. apply IH. cbn [mem].
      now rewrite (forallb_call_ok_store32 _ _ _ _ _ Hst).
    + rewrite run_calls_read. destruct (load32_Some _ _ Hc) as (x & -> & _).
      match goal with
      | |- context [run_calls r ?t] => destruct (IH t Hr) as (xs & s' & ->)
      end.
      now exists (x :: xs), s'.
Qed.

Lemma run_calls_ok (cs : list call) (s s' : state) (rs : list Z) :
  run_calls cs s = Some (rs, s') ->
  forallb (call_ok (mem s)) cs = true.
Proof.
  revert s s' rs. induction cs as [|c r IH]; intros s s' rs; [reflexivity|].
  cbn [forallb]. destruct c as [a v|a]; cbn [call_ok].
  - rewrite run_calls_write. destruct (store32 (mem s) a v) as [m'|] eqn:Hst;
      [|discriminate].
    intros Hrun. apply IH in Hrun. cbn [mem] in Hrun.
    rewrite (forallb_call_ok_store32 _ _ _ _ _ Hst) in Hrun.
    now rewrite (store32_valid _ _ _ _ Hst), Hrun.
  - rewrite run_calls_read. destruct (load32 (mem s) a) as [x|] eqn:Hld;
      [|discriminate].
    match goal with
    | |- context [run_calls r ?t] => destruct (run_calls r t) as [[xs t']|] eqn:Hrun
    end; [|discriminate].
    intros _. apply IH in Hrun. cbn [mem] in Hrun.
    now rewrite (load32_valid _ _ _ Hld), Hrun.
Qed.

Lemma run_calls_last_write (cs : list call) (s s' : state) (rs : list Z) (b : Z) :
  forallb call_uint32 cs = true ->
  run_calls cs s = Some (rs, s') ->
  load32 (mem s') b =
  match last_write b cs with
  | Some v => Some v
  | None => load32 (mem s) b
  end.
Proof.
  revert s rs. induction cs as [|c r IH]; intros s rs.
  - intros _ [= _ <-]. reflexivity.
  - cbn [forallb]. rewrite andb_true_iff. intros [Hc Hr].
    destruct c as [a v|a]; cbn [call_uint32 last_write] in *.
    + rewrite run_calls_write. destruct (store32 (mem s) a v) as [m'|] eqn:Hst;
        [|discriminate].
      intros Hrun. rewrite (IH _ _ Hr Hrun). cbn [mem].
      destruct (last_write b r); [reflexivity|].
      apply (proj1 (is_uint32_range v)) in Hc.
      rewrite (load32_after_store32 _ _ _ b _ Hc Hst).
      destruct (decide (b = a)), (decide (a = b)); congruence.
    + rewrite run_calls_read. destruct (load32 (mem s) a) as [x|]; [|discriminate].
      match goal with
      | |- context [run_calls r ?t] => destruct (run_calls r t) as [[xs t']|] eqn:Hrun
      end; [|discriminate].
      intros [= _ <-]. now rewrite (IH _ _ Hr Hrun).
Qed.

Lemma fenced_app_bounded (n : nat) (t1 t2 : list event) :
  (length t1 <= n)%nat -> fenced t1 = true -> fenced (t1 ++ t2) = fenced t2.
Proof.
  revert t1. induction n as [|k IH]; intros t1 Hlen Hf.
  - destruct t1; [reflexivity|simpl in Hlen; lia].
  - destruct t1 as [|[] [|[] [|[] r]]]; simpl in *;
      try discriminate; try reflexivity; apply IH; try assumption; lia.
Qed.

Lemma fenced_app (t1 t2 : list event) :
  fenced t1 = true -> fenced (t1 ++ t2) = fenced t2.
Proof. apply (fenced_app_bounded (length t1)). lia. Qed.

Lemma run_calls_trace (cs : list call) (s s' : state) (rs : list Z) :
  run_calls cs s = Some (rs, s') ->
  fenced (trace s) = true ->
  fenced (trace s') = true /\
  length (trace s') = (length (trace s) + 3 * length cs)%nat.
Proof.
  revert s rs. induction cs as [|c r IH]; intros s rs.
  - intros [= _ <-] Hf. split; [exact Hf|simpl; lia].
  - destruct c as [a v|a].
    + rewrite run_calls_write. destruct (store32 (mem s) a v) as [m'|];
        [|discriminate].
      intros Hrun Hf. apply IH in Hrun; cbn [trace] in *.
      * rewrite length_app in Hrun. simpl in *. split; [tauto|lia].
      * now rewrite fenced_app.
    + rewrite run_calls_read. destruct (load32 (mem s) a) as [x|]; [|discriminate].
      match goal with
      | |- context [run_calls r ?t] => destruct (run_calls r t) as [[xs t']|] eqn:Hrun
      end; [|discriminate].
      intros [= _ <-] Hf. apply IH in Hrun; cbn [trace] in *.
      * rewrite length_app in Hrun. simpl in *. split; [tauto|lia].
      * now rewrite fenced_app.
Qed.

(** ** Further properties of the two functions *)

(** X1 (a later write replaces an earlier one).  On a valid address, writing
    [v1] and then [v2] leaves the same memory as writing [v2] alone. *)
Theorem later_write_overwrites (a v1 v2 : Z) (s : state) :
  valid_write (mem s) a = true ->
  exists s12 s2,
    (writeMemSafe a v1 ;; writeMemSafe a v2) s = Some (tt, s12) /\
    writeMemSafe a v2 s = Some (tt, s2) /\
    mem s12 = mem s2.
Proof.
  intros Hok. unfold mbind, M_bind. rewrite !writeMemSafe_run.
  destruct (store32_Some _ _ v1 Hok) as [m1 H1].
  destruct (store32_Some _ _ v2 Hok) as [m2 H2].
  rewrite H1, H2. rewrite writeMemSafe_run. cbn [mem].
  rewrite (store32_store32 _ _ _ _ _ _ H1 H2).
  eexists. eexists. repeat split; reflexivity.
Qed.

(** X2 (writes to distinct addresses commute).  For two distinct valid
    addresses, the two writes leave the same memory in either order. *)
Theorem distinct_writes_commute (a b v1 v2 : Z) (s : state) :
  valid_write (mem s) a = true ->
  valid_write (mem s) b = true ->
  a <> b ->
  exists sab sba,
    (writeMemSafe a v1 ;; writeMemSafe b v2) s = Some (tt, sab) /\
    (writeMemSafe b v2 ;; writeMemSafe a v1) s = Some (tt, sba) /\
    mem sab = mem sba.
Proof.
  intros Ha Hb Hne. unfold mbind, M_bind. rewrite !writeMemSafe_run.
  destruct (store32_Some _ _ v1 Ha) as [ma Hsa].
  destruct (store32_Some _ _ v2 Hb) as [mb Hsb].
  rewrite Hsa, Hsb. rewrite !writeMemSafe_run. cbn [mem].
  pose proof Hb as Hb'. rewrite <- (store32_valid_write_eq _ _ _ b _ Hsa) in Hb'.
  pose proof Ha as Ha'. rewrite <- (store32_valid_write_eq _ _ _ a _ Hsb) in Ha'.
  destruct (store32_Some _ _ v2 Hb') as [mab Hsab].
  destruct (store32_Some _ _ v1 Ha') as [mba Hsba].
  rewrite Hsab, Hsba. eexists. eexists.
  split; [reflexivity|]. split; [reflexivity|]. cbn [mem].
  apply (store32_commute (mem s) ma mb mab mba a b v1 v2); try assumption.
  apply aligned_distinct_disjoint; [| |exact Hne].
  - exact (valid_write_aligned _ _ Ha).
  - exact (valid_write_aligned _ _ Hb).
Qed.

(** X3 (writing back what was read).  On an address valid for a store,
    reading the value and writing it back leaves the memory exactly as it
    was. *)
Theorem write_back_read_value (a : Z) (s : state) :
  valid_write (mem s) a = true ->
  exists x s',
    (x ← readMemSafe a; writeMemSafe a x ;; mret x) s = Some (x, s') /\
    mem s' = mem s.
Proof.
  intros Hok. unfold mbind, M_bind, mret, M_ret. rewrite readMemSafe_run.
  destruct (load32_Some _ _ (valid_write_read _ _ Hok)) as (x & Hld & _).
  rewrite Hld, writeMemSafe_run. cbn [mem].
  rewrite (store32_loaded _ _ _ Hok Hld).
  eexists. eexists. split; reflexivity.
Qed.

(** X4 (a write changes no mapping and no permission).  After a write to a
    valid address the same bytes are mapped as before, and every address is
    valid for a load, or for a store, exactly when it was before. *)
Theorem write_preserves_validity (a v : Z) (s : state) :
  valid_write (mem s) a = true ->
  exists s',
    writeMemSafe a v s = Some (tt, s') /\
    dom (mem s') = dom (mem s) /\
    forall b,
      valid_read (mem s') b = valid_read (mem s) b /\
      valid_write (mem s') b = valid_write (mem s) b.
Proof.
  intros Hok. rewrite writeMemSafe_run.
  destruct (store32_Some _ _ v Hok) as [m' Hst]. rewrite Hst.
  eexists. split; [reflexivity|]. cbn [mem]. split.
  - exact (store32_dom _ _ _ _ Hst).
  - intros b. split.
    + exact (store32_valid_read_eq _ _ _ _ _ Hst).
    + exact (store32_valid_write_eq _ _ _ _ _ Hst).
Qed.

(** X5 (a read after a write, at any address).  After [writeMemSafe a v] on
    a valid address with a 32-bit [v], a read of [a] returns [v] and a read
    of any other address [b] behaves exactly as before the write: it returns
    the value it returned then, or is undefined as it was then. *)
Theorem read_after_write_anywhere (a b v : Z) (s : state) :
  0 <= v < 2 ^ 32 ->
  valid_write (mem s) a = true ->
  exists s',
    writeMemSafe a v s = Some (tt, s') /\
    fst <$> readMemSafe b s' =
      if decide (b = a) then Some v else fst <$> readMemSafe b s.
Proof.
  intros Hv Hok. rewrite writeMemSafe_run.
  destruct (store32_Some _ _ v Hok) as [m' Hst]. rewrite Hst.
  eexists. split; [reflexivity|]. rewrite !readMemSafe_value. cbn [mem].
  exact (load32_after_store32 _ _ _ _ _ Hv Hst).
Qed.

(** X6 (reads see the last write).  Run any sequence of calls whose
    pointers are valid in the initial memory and whose values are 32-bit.
    Afterwards a read of any address [b] returns the value of the last write
    to [b] in the sequence, and behaves as in the initial state when the
    sequence has no write to [b]. *)
Theorem reads_see_last_write (cs : list call) (s : state) :
  forallb call_uint32 cs = true ->
  forallb (call_ok (mem s)) cs = true ->
  exists rs s',
    run_calls cs s = Some (rs, s') /\
    forall b,
      fst <$> readMemSafe b s' =
        match last_write b cs with
        | Some v => Some v
        | None => fst <$> readMemSafe b s
        end.
Proof.
  intros Hv Hok. destruct (run_calls_Some cs s Hok) as (rs & s' & Hrun).
  exists rs, s'. split; [exact Hrun|]. intros b.
  rewrite !readMemSafe_value. exact (run_calls_last_write _ _ _ _ b Hv Hrun).
Qed.

(** X7 (when a sequence of calls is defined).  A sequence of calls is
    defined exactly when the pointer of every call is valid, for the access
    that call makes, in the initial memory: no call makes a later one
    undefined, and none repairs an invalid pointer. *)
Theorem run_calls_defined_iff (cs : list call) (s : state) :
  is_Some (run_calls cs s) <-> forallb (call_ok (mem s)) cs = true.
Proof.
  split.
  - intros [[rs s'] Hrun]. exact (run_calls_ok _ _ _ _ Hrun).
  - intros Hok. destruct (run_calls_Some cs s Hok) as (rs & s' & Hrun).
    now exists (rs, s').
Qed.

(** X8 (every access is fenced).  Starting from a fenced trace, any defined
    sequence of calls ends with a fenced trace: each store and each load in
    it stands between two barriers of its own, and each call has added
    exactly three events. *)
Theorem calls_keep_trace_fenced (cs : list call) (s : state) :
  fenced (trace s) = true ->
  forallb (call_ok (mem s)) cs = true ->
  exists rs s',
    run_calls cs s = Some (rs, s') /\
    fenced (trace s') = true /\
    length (trace s') = (length (trace s) + 3 * length cs)%nat.
Proof.
  intros Hf Hok. destruct (run_calls_Some cs s Hok) as (rs & s' & Hrun).
  exists rs, s'. split; [exact Hrun|]. exact (run_calls_trace _ _ _ _ Hrun Hf).
Qed.

End Accessor.

(** ** The accessor on the sample states *)

Example sample_later_is_reached :
  (writeMemSafe LittleEndian 4100 255 ;; readMemSafe LittleEndian 4100) sample_state
  = Some (255, sample_state_later).
Proof. vm_compute. reflexivity. Qed.

Example sample_byte_order :
  (s ← snd <$> writeMemSafe LittleEndian 4096 3735928559 sample_state;
   content <$> mem s !! 4096) = Some xef /\
  (s ← snd <$> writeMemSafe BigEndian 4096 3735928559 sample_state;
   content <$> mem s !! 4096) = Some xde.
Proof. split; vm_compute; reflexivity. Qed.

Example sample_unaligned :
  writeMemSafe LittleEndian 4097 1 sample_state = None /\
  readMemSafe LittleEndian 4097 sample_state = None.
Proof. split; vm_compute; reflexivity. Qed.

Example sample_unmapped :
  writeMemSafe BigEndian 4108 1 sample_state <> None /\
  writeMemSafe BigEndian 4112 1 sample_state = None /\
  readMemSafe BigEndian 0 sample_state = None.
Proof. repeat split; vm_compute; congruence. Qed.

Example sample_read_only :
  writeMemSafe BigEndian 8192 1 sample_state = None /\
  fst <$> readMemSafe BigEndian 8192 sample_state = Some 0.
Proof. split; vm_compute; reflexivity. Qed.

Example read_only_state_no_store :
  valid_write (mem read_only_state) 8192 = false /\
  fst <$> readMemSafe LittleEndian 8192 read_only_state = Some 0.
Proof. split; vm_compute; reflexivity. Qed.

Lemma write_read_round_trip_witness :
  exists s',
    (writeMemSafe LittleEndian 4096 3735928559 ;; readMemSafe LittleEndian 4096)
      sample_state = Some (3735928559, s').
Proof.
  apply (write_read_round_trip LittleEndian 4096 3735928559 sample_state).
  - lia.
  - vm_compute. reflexivity.
Defined.

Lemma alternating_write_read_witness :
  exists s',
    write_read_each BigEndian 4104 (alternating 5 false) sample_state
    = Some ([0; 4294967295; 0; 4294967295; 0], s').
Proof.
  apply (alternating_write_read BigEndian 4104 5 false sample_state).
  vm_compute. reflexivity.
Defined.

Lemma read_twice_same_witness :
  exists x s1 s2,
    readMemSafe LittleEndian 8192 sample_state = Some (x, s1) /\
    readMemSafe LittleEndian 8192 s1 = Some (x, s2).
Proof.
  apply (read_twice_same LittleEndian 8192 sample_state).
  vm_compute. reflexivity.
Defined.

Lemma independent_slots_witness :
  exists s2,
    (writeMemSafe BigEndian 4096 1 ;; writeMemSafe BigEndian 4100 2) sample_state
    = Some (tt, s2) /\
    fst <$> readMemSafe BigEndian 4096 s2 = Some 1 /\
    fst <$> readMemSafe BigEndian 4100 s2 = Some 2.
Proof.
  apply (independent_slots BigEndian 4096 4100 1 2 sample_state).
  - lia.
  - lia.
  - vm_compute. reflexivity.
  - vm_compute. reflexivity.
  - lia.
Defined.

Lemma writeMemSafe_sequence_witness :
  exists s',
    writeMemSafe LittleEndian 4104 3735928559 sample_state_later = Some (tt, s') /\
    trace s' = trace sample_state_later
               ++ [EvFence; EvStore 4104 3735928559; EvFence] /\
    store32 LittleEndian (mem sample_state_later) 4104 3735928559 = Some (mem s') /\
    load32 LittleEndian (mem s') 4104 = Some 3735928559 /\
    (forall q, q < 4104 \/ 4104 + 4 <= q ->
               mem s' !! q = mem sample_state_later !! q).
Proof.
  assert (0 <= 3735928559 < 2 ^ 32) as Hv by lia.
  exact (writeMemSafe_sequence LittleEndian 4104 3735928559 sample_state_later Hv).
Defined.

Lemma no_retained_state_witness :
  fst <$> readMemSafe LittleEndian 4096 sample_state
  = fst <$> readMemSafe LittleEndian 4096 sample_state_later /\
  match writeMemSafe LittleEndian 4096 9 sample_state,
        writeMemSafe LittleEndian 4096 9 sample_state_later with
  | Some (_, s1'), Some (_, s2') =>
      same_slot (mem s1') (mem s2') 4096 = true /\
      (mem sample_state = mem sample_state_later -> mem s1' = mem s2')
  | None, None => True
  | _, _ => False
  end.
Proof.
  apply (no_retained_state LittleEndian 4096 9 sample_state sample_state_later).
  vm_compute. reflexivity.
Defined.

Lemma accessors_terminate_witness :
  (exists s',
     writeMemSafe BigEndian 4096 7 sample_state = Some (tt, s') /\
     length (trace s') = (length (trace sample_state) + 3)%nat) /\
  (exists x s',
     readMemSafe BigEndian 8192 read_only_state = Some (x, s') /\
     length (trace s') = (length (trace read_only_state) + 3)%nat).
Proof.
  split.
  - apply (proj1 (accessors_terminate BigEndian 4096 8192 7 sample_state)).
    vm_compute. reflexivity.
  - apply (proj2 (accessors_terminate BigEndian 4096 8192 7 read_only_state)).
    vm_compute. reflexivity.
Defined.

Lemma read_preserves_memory_witness :
  exists x s',
    readMemSafe LittleEndian 4100 sample_state_later = Some (x, s') /\
    mem s' = mem sample_state_later.
Proof.
  apply (read_preserves_memory LittleEndian 4100 sample_state_later).
  vm_compute. reflexivity.
Defined.

(** ** Further properties on the sample states *)

Example sample_calls_result :
  fst <$> run_calls LittleEndian sample_calls sample_state = Some [0; 7; 0].
Proof. vm_compute. reflexivity. Qed.

Lemma later_write_overwrites_witness :
  exists s12 s2,
    (writeMemSafe BigEndian 4100 5 ;; writeMemSafe BigEndian 4100 6) sample_state
    = Some (tt, s12) /\
    writeMemSafe BigEndian 4100 6 sample_state = Some (tt, s2) /\
    mem s12 = mem s2.
Proof.
  apply (later_write_overwrites BigEndian 4100 5 6 sample_state).
  vm_compute. reflexivity.
Defined.

Lemma distinct_writes_commute_witness :
  exists sab sba,
    (writeMemSafe LittleEndian 4096 1 ;; writeMemSafe LittleEndian 4108 2) sample_state
    = Some (tt, sab) /\
    (writeMemSafe LittleEndian 4108 2 ;; writeMemSafe LittleEndian 4096 1) sample_state
    = Some (tt, sba) /\
    mem sab = mem sba.
Proof.
  apply (distinct_writes_commute LittleEndian 4096 4108 1 2 sample_state).
  - vm_compute. reflexivity.
  - vm_compute. reflexivity.
  - lia.
Defined.

Lemma write_back_read_value_witness :
  exists x s',
    (x ← readMemSafe BigEndian 4100; writeMemSafe BigEndian 4100 x ;; mret x)
      sample_state_later = Some (x, s') /\
    mem s' = mem sample_state_later.
Proof.
  apply (write_back_read_value BigEndian 4100 sample_state_later).
  vm_compute. reflexivity.
Defined.

Lemma write_preserves_validity_witness :
  exists s',
    writeMemSafe LittleEndian 4104 123456 sample_state = Some (tt, s') /\
    dom (mem s') = dom (mem sample_state) /\
    forall b,
      valid_read (mem s') b = valid_read (mem sample_state) b /\
      valid_write (mem s') b = valid_write (mem sample_state) b.
Proof.
  apply (write_preserves_validity LittleEndian 4104 123456 sample_state).
  vm_compute. reflexivity.
Defined.

Lemma read_after_write_anywhere_witness :
  exists s',
    writeMemSafe LittleEndian 4096 77 sample_state_later = Some (tt, s') /\
    fst <$> readMemSafe LittleEndian 4100 s' =
      if decide (4100 = 4096) then Some 77
      else fst <$> readMemSafe LittleEndian 4100 sample_state_later.
Proof.
  apply (read_after_write_anywhere LittleEndian 4096 4100 77 sample_state_later).
  - lia.
  - vm_compute. reflexivity.
Defined.

Lemma reads_see_last_write_witness :
  exists rs s',
    run_calls BigEndian sample_calls sample_state = Some (rs, s') /\
    forall b,
      fst <$> readMemSafe BigEndian b s' =
        match last_write b sample_calls with
        | Some v => Some v
        | None => fst <$> readMemSafe BigEndian b sample_state
        end.
Proof.
  apply (reads_see_last_write BigEndian sample_calls sample_state).
  - vm_compute. reflexivity.
  - vm_compute. reflexivity.
Defined.

Lemma calls_keep_trace_fenced_witness :
  exists rs s',
    run_calls LittleEndian sample_calls sample_state_later = Some (rs, s') /\
    fenced (trace s') = true /\
    length (trace s') = (length (trace sample_state_later) + 3 * length sample_calls)%nat.
Proof.
  apply (calls_keep_trace_fenced LittleEndian sample_calls sample_state_later).
  - vm_compute. reflexivity.
  - vm_compute. reflexivity.
Defined.
